(** * typed_app: the Matrix model and the matrix functions

    A shallow embedding of [src/typed_app/models.py] (class [Matrix]) and
    [src/typed_app/functions.py] ([multiply_matrices],
    [create_identity_matrix], [matrix_determinant], [matrix_trace]).

    Python raises exceptions; here every function that can raise returns a
    [result].  List indexing [l[i]] raises [IndexError] out of range, loops
    with [append] and list comprehensions run left to right and stop at the
    first exception.  Matrix elements are numbers with the operations the
    code applies to them ([+], [-], [*] and the literals [0], [0.0], [1.0]);
    they are kept abstract in the class [Number], so that every structural
    result holds whatever the arithmetic is. *)

From stdpp Require Import base numbers list strings pretty.

Local Open Scope string_scope.
Local Open Scope list_scope.

(** ** Exceptions and results *)

Inductive exn : Type :=
  | ValueError (msg : string)
  | IndexError (msg : string).

Inductive result (A : Type) : Type :=
  | Ok (a : A)
  | Err (e : exn).
Arguments Ok {A} a.
Arguments Err {A} e.

#[global] Instance result_ret : MRet result := λ A a, Ok a.
#[global] Instance result_bind : MBind result := λ A B f r,
  match r with
  | Ok a => f a
  | Err e => Err e
  end.

(** A run of recursive code under a recursion budget: it finishes with a
    result, or the budget is used up first. *)
Inductive outcome (A : Type) : Type :=
  | Done (r : result A)
  | OutOfFuel.
Arguments Done {A} r.
Arguments OutOfFuel {A}.

#[global] Instance outcome_ret : MRet outcome := λ A a, Done (Ok a).
#[global] Instance outcome_bind : MBind outcome := λ A B f o,
  match o with
  | Done (Ok a) => f a
  | Done (Err e) => Done (Err e)
  | OutOfFuel => OutOfFuel
  end.

(** [for x in xs: body], the loop state threaded through the iterations. *)
Fixpoint for_in {M : Type → Type} `{MBind M, MRet M} {A S : Type}
    (xs : list A) (body : S → A → M S) (s : S) : M S :=
  match xs with
  | [] => mret s
  | x :: xs' => s' ← body s x; for_in xs' body s'
  end.

(** [[f x for x in xs]]. *)
Fixpoint comprehension {A B : Type} (f : A → result B) (xs : list A)
    : result (list B) :=
  match xs with
  | [] => Ok []
  | x :: xs' => y ← f x; ys ← comprehension f xs'; Ok (y :: ys)
  end.

(** [range(n)] and [range(a, b)]. *)
Definition range (n : nat) : list nat := seq 0 n.
Definition range2 (a b : nat) : list nat := seq a (b - a).

(** [l[i]] for an index that is not negative. *)
Definition index {A : Type} (l : list A) (i : nat) : result A :=
  match l !! i with
  | Some x => Ok x
  | None => Err (IndexError "list index out of range")
  end.

(** [d[i][j]] *)
Definition item {A : Type} (d : list (list A)) (i j : nat) : result A :=
  row ← index d i; index row j.

(** ** Numbers *)

Class Number (F : Type) : Type := {
  add : F → F → F;          (* x + y *)
  sub : F → F → F;          (* x - y *)
  mul : F → F → F;          (* x * y *)
  zero : F;                 (* the literal 0, where [sum] starts *)
  zero_f : F;               (* the literal 0.0 *)
  one_f : F;                (* the literal 1.0 *)
}.

(** The laws of exact arithmetic that the identity matrix relies on. *)
Class ExactArith (F : Type) `{Number F} : Prop := {
  zero_zero_f : zero = zero_f :> F;
  add_zero_l : ∀ x : F, add zero_f x = x;
  add_zero_r : ∀ x : F, add x zero_f = x;
  mul_zero_l : ∀ x : F, mul zero_f x = zero_f;
  mul_zero_r : ∀ x : F, mul x zero_f = zero_f;
  mul_one_l : ∀ x : F, mul one_f x = x;
  mul_one_r : ∀ x : F, mul x one_f = x;
}.

#[global] Instance Z_Number : Number Z := {|
  add := Z.add; sub := Z.sub; mul := Z.mul;
  zero := 0%Z; zero_f := 0%Z; one_f := 1%Z;
|}.

#[global] Instance Z_ExactArith : ExactArith Z.
Proof. split; simpl; intros; lia. Qed.

(** [sum(xs)]: starts from [0] and adds from the left. *)
Definition py_sum `{Number F} (xs : list F) : F := foldl add zero xs.

(** ** models.py: class Matrix *)

Section Matrix.
Context {F : Type} `{Number F}.

Record Matrix : Type := { data : list (list F) }.

(** [__post_init__] *)
Definition post_init (self : Matrix) : result () :=
  match data self with
  | [] => Err (ValueError "Matrix cannot be empty")
  | row0 :: _ =>
      let first_row_length := length row0 in
      for_in (data self) (λ _ row,
        if decide (length row ≠ first_row_length)
        then Err (ValueError "All rows must have the same length")
        else Ok ()) ()
  end.

(** [Matrix(data)]: the dataclass constructor stores the field and runs
    [__post_init__]. *)
Definition Matrix_new (d : list (list F)) : result Matrix :=
  let self := {| data := d |} in
  _ ← post_init self; Ok self.

(** property [rows] *)
Definition rows (self : Matrix) : nat := length (data self).

(** property [cols] *)
Definition cols (self : Matrix) : nat :=
  match data self with
  | row0 :: _ => length row0
  | [] => 0
  end.

(** [transpose] *)
Definition transpose (self : Matrix) : result Matrix :=
  transposed_data ←
    comprehension (λ i,
      comprehension (λ j, item (data self) j i)
        (range (rows self)))
      (range (cols self));
  Matrix_new transposed_data.

(** [__add__] *)
Definition Matrix_add (self other : Matrix) : result Matrix :=
  if decide (rows self ≠ rows other ∨ cols self ≠ cols other)
  then Err (ValueError
         ("Cannot add matrices of different sizes: "
          +:+ pretty (rows self) +:+ "x" +:+ pretty (cols self)
          +:+ " and "
          +:+ pretty (rows other) +:+ "x" +:+ pretty (cols other)))
  else
    result_data ←
      comprehension (λ i,
        comprehension (λ j,
          x ← item (data self) i j; y ← item (data other) i j;
          Ok (add x y))
          (range (cols self)))
        (range (rows self));
    Matrix_new result_data.

(** [__mul__] *)
Definition Matrix_mul (self : Matrix) (scalar : F) : result Matrix :=
  result_data ←
    comprehension (λ i,
      comprehension (λ j,
        x ← item (data self) i j; Ok (mul x scalar))
        (range (cols self)))
      (range (rows self));
  Matrix_new result_data.

(** [__rmul__] *)
Definition Matrix_rmul (self : Matrix) (scalar : F) : result Matrix :=
  Matrix_mul self scalar.

End Matrix.
Arguments Matrix F : clear implicits.

(** ** functions.py *)

Section Functions.
Context {F : Type} `{Number F}.

(** [multiply_matrices] *)
Definition multiply_matrices (matrix1 matrix2 : Matrix F) : result (Matrix F) :=
  if decide (cols matrix1 ≠ rows matrix2)
  then Err (ValueError
         ("Cannot multiply matrices: "
          +:+ pretty (rows matrix1) +:+ "x" +:+ pretty (cols matrix1)
          +:+ " and "
          +:+ pretty (rows matrix2) +:+ "x" +:+ pretty (cols matrix2)
          +:+ ". "
          +:+ "Number of columns in first matrix must equal number of rows in second matrix."))
  else
    result_data ←
      for_in (range (rows matrix1)) (λ result_data i,
        row ←
          for_in (range (cols matrix2)) (λ row j,
            terms ←
              comprehension (λ k,
                x ← item (data matrix1) i k; y ← item (data matrix2) k j;
                Ok (mul x y))
                (range (cols matrix1));
            let element := py_sum terms in
            Ok (row ++ [element])) [];
        Ok (result_data ++ [row])) [];
    Matrix_new result_data.

(** [create_identity_matrix] *)
Definition create_identity_matrix (size : Z) : result (Matrix F) :=
  if decide (size < 1)%Z
  then Err (ValueError "Matrix size must be at least 1")
  else
    data ←
      for_in (range (Z.to_nat size)) (λ data i,
        row ←
          for_in (range (Z.to_nat size)) (λ row j,
            Ok (row ++ [if decide (i = j) then one_f else zero_f])) [];
        Ok (data ++ [row])) [];
    Matrix_new data.

(** The submatrix built in the loop of [matrix_determinant]: the first row
    and the column [col] are left out. *)
Definition submatrix_data (matrix : Matrix F) (col : nat)
    : result (list (list F)) :=
  for_in (range2 1 (rows matrix)) (λ submatrix_data i,
    row ←
      for_in (range (cols matrix)) (λ row j,
        if decide (j ≠ col)
        then x ← item (data matrix) i j; Ok (row ++ [x])
        else Ok row) [];
    Ok (submatrix_data ++ [row])) [].

(** [matrix_determinant], each call spending one unit of [fuel]. *)
Fixpoint matrix_determinant_fuel (fuel : nat) (matrix : Matrix F)
    : outcome F :=
  match fuel with
  | 0 => OutOfFuel
  | S fuel' =>
      if decide (rows matrix ≠ cols matrix)
      then Done (Err (ValueError
             "Determinant can only be calculated for square matrices"))
      else if decide (rows matrix = 1)
      then Done (item (data matrix) 0 0)
      else if decide (rows matrix = 2)
      then Done (
        a ← item (data matrix) 0 0; d ← item (data matrix) 1 1;
        b ← item (data matrix) 0 1; c ← item (data matrix) 1 0;
        Ok (sub (mul a d) (mul b c)))
      else
        for_in (range (cols matrix)) (λ determinant col,
          sd ← Done (submatrix_data matrix col);
          submatrix ← Done (Matrix_new sd);
          x ← Done (item (data matrix) 0 col);
          d ← matrix_determinant_fuel fuel' submatrix;
          let cofactor := mul x d in
          if decide (col `mod` 2 = 0)
          then mret (add determinant cofactor)
          else mret (sub determinant cofactor)) zero_f
  end.

(** [matrix_determinant]: the recursion is at most [rows] deep. *)
Definition matrix_determinant (matrix : Matrix F) : outcome F :=
  matrix_determinant_fuel (S (rows matrix)) matrix.

(** [matrix_trace] *)
Definition matrix_trace (matrix : Matrix F) : result F :=
  if decide (rows matrix ≠ cols matrix)
  then Err (ValueError "Trace can only be calculated for square matrices")
  else
    diagonal ←
      comprehension (λ i, item (data matrix) i i)
        (range (rows matrix));
    Ok (py_sum diagonal).

End Functions.

(** ** models.py: element access *)

Section Access.
Context {F : Type} `{Number F}.

(** [get_element]: [row] and [col] are Python integers, possibly negative. *)
Definition get_element (self : Matrix F) (row col : Z) : result F :=
  if decide (¬ (0 ≤ row < Z.of_nat (rows self))%Z)
  then Err (IndexError
         ("Row index " +:+ pretty row +:+ " out of bounds (0-"
          +:+ pretty (Z.of_nat (rows self) - 1)%Z +:+ ")"))
  else if decide (¬ (0 ≤ col < Z.of_nat (cols self))%Z)
  then Err (IndexError
         ("Column index " +:+ pretty col +:+ " out of bounds (0-"
          +:+ pretty (Z.of_nat (cols self) - 1)%Z +:+ ")"))
  else item (data self) (Z.to_nat row) (Z.to_nat col).


End Access.

(** ** models.py: class User *)

(** A string is the list of its characters; [isspace] tells the characters
    that [str.strip] removes, and [space] is the character of [" "]. *)
Section User.
Context {char : Type} (isspace : char → bool) (space : char).

Record User : Type := {
  id : Z;
  first_name : list char;
  last_name : list char;
  email : list char;
}.

(** [s.lstrip()], [s.rstrip()] and [s.strip()] *)
Fixpoint lstrip (s : list char) : list char :=
  match s with
  | [] => []
  | c :: s' => if isspace c then lstrip s' else s
  end.

Definition rstrip (s : list char) : list char :=
  reverse (lstrip (reverse s)).

Definition strip (s : list char) : list char := rstrip (lstrip s).

(** [full_name] *)
Definition full_name (self : User) : list char :=
  strip (first_name self ++ [space] ++ last_name self).

(** [get_user_full_name], of functions.py *)
Definition get_user_full_name (user : User) : list char := full_name user.

End User.
Arguments User char : clear implicits.

(** ASCII characters, with the ASCII part of Python's [str.isspace]. *)
Definition ascii_isspace (c : Ascii.ascii) : bool :=
  let n := Ascii.nat_of_ascii c in
  bool_decide (n = 32 ∨ 9 ≤ n ≤ 13 ∨ 28 ≤ n ≤ 31)%nat.

(** The character of [" "]. *)
Definition ascii_space : Ascii.ascii := Ascii.ascii_of_nat 32.

Definition ada : User Ascii.ascii := {|
  id := 1;
  first_name := String.list_ascii_of_string "Ada";
  last_name := String.list_ascii_of_string "Lovelace";
  email := String.list_ascii_of_string "ada@example.com";
|}.

(** A user without a last name. *)
Definition ada_only : User Ascii.ascii := {|
  id := 2;
  first_name := String.list_ascii_of_string "Ada";
  last_name := [];
  email := [];
|}.

(** ** Vocabulary of the specification *)

Local Close Scope string_scope.

Section Vocabulary.
Context {F : Type} `{Number F}.

(** A matrix the constructor accepts. *)
Definition valid (m : Matrix F) : Prop := post_init m = Ok ().

(** The invariant in the words of the data model: at least one row, and
    every row as long as [cols]. *)
Definition invariant (m : Matrix F) : Prop :=
  1 ≤ rows m ∧ Forall (λ row, length row = cols m) (data m).

(** The element at row [i] and column [j], read without a bounds check
    ([0.0] outside of the grid). *)
Definition elem (m : Matrix F) (i j : nat) : F :=
  nth j (nth i (data m) []) zero_f.

(** The [r] by [c] grid whose element at [(i, j)] is [f i j]. *)
Definition tabulate (r c : nat) (f : nat → nat → F) : list (list F) :=
  (λ i, f i <$> seq 0 c) <$> seq 0 r.

(** The element of a product at [(i, j)]: the sum over [k] of
    [a[i][k] * b[k][j]]. *)
Definition dot (a b : Matrix F) (i j : nat) : F :=
  py_sum ((λ k, mul (elem a i k) (elem b k j)) <$> range (cols a)).

(** [1.0] on the diagonal and [0.0] elsewhere. *)
Definition kronecker (i j : nat) : F :=
  if decide (i = j) then one_f else zero_f.

(** The minor: row 0 and column [col] removed. *)
Definition minor (m : Matrix F) (col : nat) : Matrix F :=
  {| data := delete col <$> drop 1 (data m) |}.

(** Cofactor expansion: starting from column [col], a term is added when
    its column is even and subtracted when it is odd. *)
Fixpoint alternating_sum_from (col : nat) (acc : F) (terms : list F) : F :=
  match terms with
  | [] => acc
  | t :: ts =>
      alternating_sum_from (S col)
        (if Nat.even col then add acc t else sub acc t) ts
  end.

Definition alternating_sum (terms : list F) : F :=
  alternating_sum_from 0 zero_f terms.

(** The terms of the expansion along the first row, given the
    determinants [dets col] of the minors. *)
Definition cofactors (m : Matrix F) (dets : nat → F) : list F :=
  (λ col, mul (elem m 0 col) (dets col)) <$> range (cols m).

(** Laplace expansion of an [n] by [n] matrix along its first row. *)
Fixpoint laplace (n : nat) (m : Matrix F) : F :=
  match n with
  | 0 => zero_f
  | S n' =>
      match n' with
      | 0 => elem m 0 0
      | 1 => sub (mul (elem m 0 0) (elem m 1 1))
                 (mul (elem m 0 1) (elem m 1 0))
      | _ => alternating_sum
               (cofactors m (λ col, laplace n' (minor m col)))
      end
  end.

End Vocabulary.

(** ** Matrices of the test suite *)

Definition m22 : Matrix Z := {| data := [[1; 2]; [3; 4]]%Z |}.
Definition m22' : Matrix Z := {| data := [[5; 6]; [7; 8]]%Z |}.
Definition m23 : Matrix Z := {| data := [[1; 2; 3]; [4; 5; 6]]%Z |}.
Definition m33 : Matrix Z := {| data := [[1; 2; 3]; [4; 5; 6]; [7; 8; 9]]%Z |}.

(** [Matrix([[]])]: one row and no column. *)
Definition m10 : Matrix Z := {| data := [[]] |}.

(** ** Loops and comprehensions that do not raise *)

Section Loops.
Context {A B : Type}.
Implicit Types (xs : list A).

Lemma comprehension_Ok (f : A → result B) (g : A → B) xs :
  (∀ x, x ∈ xs → f x = Ok (g x)) →
  comprehension f xs = Ok (g <$> xs).
Proof.
  induction xs as [|x xs IH]; intros Hf; simpl; [done|].
  rewrite Hf; [|left]. simpl.
  rewrite IH; [done|]. intros y Hy. apply Hf. by right.
Qed.

Lemma for_in_append_Ok (body : list B → A → result (list B)) (g : A → B)
    xs init :
  (∀ acc x, x ∈ xs → body acc x = Ok (acc ++ [g x])) →
  for_in xs body init = Ok (init ++ (g <$> xs)).
Proof.
  revert init. induction xs as [|x xs IH]; intros init Hb; simpl.
  - by rewrite app_nil_r.
  - rewrite Hb; [|left]. simpl. rewrite IH.
    + by rewrite <- app_assoc.
    + intros acc y Hy. apply Hb. by right.
Qed.

Lemma for_in_filter_Ok (body : list B → A → result (list B)) (g : A → B)
    (P : A → Prop) `{∀ x, Decision (P x)} xs init :
  (∀ acc x, x ∈ xs →
     body acc x = if decide (P x) then Ok (acc ++ [g x]) else Ok acc) →
  for_in xs body init = Ok (init ++ (g <$> filter P xs)).
Proof.
  revert init. induction xs as [|x xs IH]; intros init Hb; simpl.
  - by rewrite app_nil_r.
  - rewrite Hb; [|left]. rewrite filter_cons.
    destruct (decide (P x)); simpl; rewrite IH.
    + by rewrite <- app_assoc.
    + intros acc y Hy. apply Hb. by right.
    + done.
    + intros acc y Hy. apply Hb. by right.
Qed.

(** A loop that appends one item per iteration grows its list by the
    number of iterations, when it finishes. *)
Lemma for_in_append_length (body : list B → A → result (list B)) xs init r :
  (∀ acc x r', body acc x = Ok r' → length r' = S (length acc)) →
  for_in xs body init = Ok r →
  length r = length init + length xs.
Proof.
  intros Hb. revert init. induction xs as [|x xs IH]; intros init; simpl.
  - intros [= <-]. lia.
  - destruct (body init x) as [acc|e] eqn:E; simpl; [|done].
    intros Hr. apply IH in Hr. apply Hb in E. lia.
Qed.

(** A loop whose body never uses up the budget does not either. *)
Lemma for_in_finishes {S : Type} (body : S → A → outcome S) xs s :
  (∀ s' x, x ∈ xs → body s' x ≠ OutOfFuel) →
  for_in xs body s ≠ OutOfFuel.
Proof.
  revert s. induction xs as [|x xs IH]; intros s Hb; simpl; [done|].
  destruct (body s x) as [[s'|e]|] eqn:E; simpl.
  - apply IH. intros s'' y Hy. apply Hb. by right.
  - done.
  - exfalso. eapply Hb; [|exact E]. left.
Qed.

End Loops.

(** ** The constructor and its invariant *)

Section Validity.
Context {F : Type} `{Number F}.
Implicit Types (m : Matrix F) (d : list (list F)) (f : nat → nat → F).

Lemma check_rows_spec n d :
  for_in d (λ _ row,
      if decide (length row ≠ n)
      then Err (ValueError "All rows must have the same length")
      else Ok ()) () =
    if decide (Forall (λ row, length row = n) d)
    then Ok ()
    else Err (ValueError "All rows must have the same length").
Proof.
  induction d as [|row d IH].
  - rewrite decide_True; [done|]. constructor.
  - cbn [for_in]. destruct (decide (length row ≠ n)) as [Hne|Heq]; simpl.
    + rewrite decide_False; [done|]. intros Hall. by inversion Hall.
    + cbn [for_in] in IH. rewrite IH. apply dec_stable in Heq.
      destruct (decide (Forall _ d)) as [Hd|Hd].
      * rewrite decide_True; [done|]. by constructor.
      * rewrite decide_False; [done|]. intros Hall. by inversion Hall.
Qed.

Lemma post_init_spec m :
  post_init m =
    match data m with
    | [] => Err (ValueError "Matrix cannot be empty")
    | row0 :: _ =>
        if decide (Forall (λ row, length row = length row0) (data m))
        then Ok ()
        else Err (ValueError "All rows must have the same length")
    end.
Proof.
  unfold post_init. destruct (data m) as [|row0 d]; [done|].
  apply (check_rows_spec (length row0) (row0 :: d)).
Qed.

Lemma valid_invariant m : valid m ↔ invariant m.
Proof.
  unfold valid, invariant, rows, cols. rewrite post_init_spec.
  destruct (data m) as [|row0 d]; simpl.
  - split; [done|]. intros [? _]. lia.
  - destruct (decide _) as [Hall|Hall]; split; try done.
    + intros _. split; [lia|done].
    + intros [_ ?]. done.
Qed.

Lemma Matrix_new_valid d : valid {| data := d |} → Matrix_new d = Ok {| data := d |}.
Proof. unfold valid, Matrix_new. by intros ->. Qed.

Lemma Matrix_new_Ok d m : Matrix_new d = Ok m → m = {| data := d |} ∧ valid m.
Proof.
  unfold Matrix_new, valid.
  destruct (post_init {| data := d |}) as [[]|e] eqn:E; simpl; [|done].
  by intros [= <-].
Qed.

Lemma valid_rows_pos m : valid m → 0 < rows m.
Proof. rewrite valid_invariant. intros [? _]. lia. Qed.

Lemma valid_row_length m i row :
  valid m → data m !! i = Some row → length row = cols m.
Proof.
  rewrite valid_invariant. intros [_ Hall] Hi.
  by apply (proj1 (Forall_lookup _ _) Hall i row).
Qed.

Lemma item_lookup d i j row x :
  d !! i = Some row → row !! j = Some x → item d i j = Ok x.
Proof. unfold item, index. intros -> . simpl. by intros ->. Qed.

(** In range, [m.data[i][j]] does not raise and reads [elem m i j]. *)
Lemma item_valid m i j :
  valid m → i < rows m → j < cols m → item (data m) i j = Ok (elem m i j).
Proof.
  intros Hv Hi Hj. unfold rows in Hi.
  destruct (lookup_lt_is_Some_2 (data m) i Hi) as [row Hrow].
  pose proof (valid_row_length m i row Hv Hrow) as Hlen.
  assert (j < length row) as Hj' by lia.
  destruct (lookup_lt_is_Some_2 row j Hj') as [x Hx].
  rewrite (item_lookup _ _ _ _ _ Hrow Hx). f_equal.
  unfold elem. rewrite (nth_lookup_Some _ _ _ _ Hrow).
  by rewrite (nth_lookup_Some _ _ _ _ Hx).
Qed.

Lemma length_tabulate r c f : length (tabulate r c f) = r.
Proof. unfold tabulate. by rewrite length_fmap, length_seq. Qed.

Lemma lookup_tabulate r c f i :
  i < r → tabulate r c f !! i = Some (f i <$> seq 0 c).
Proof.
  intros Hi. unfold tabulate. rewrite list_lookup_fmap.
  by rewrite lookup_seq_lt.
Qed.

Lemma rows_tabulate r c f : rows {| data := tabulate r c f |} = r.
Proof. apply length_tabulate. Qed.

Lemma cols_tabulate r c f : 0 < r → cols {| data := tabulate r c f |} = c.
Proof.
  intros Hr. unfold cols. simpl. destruct r as [|r]; [lia|].
  unfold tabulate. simpl. by rewrite length_fmap, length_seq.
Qed.

Lemma valid_tabulate r c f : 0 < r → valid {| data := tabulate r c f |}.
Proof.
  intros Hr. apply valid_invariant. split.
  - rewrite rows_tabulate. lia.
  - rewrite cols_tabulate by done. simpl. unfold tabulate.
    apply Forall_fmap, Forall_forall. intros i _. simpl.
    by rewrite length_fmap, length_seq.
Qed.

Lemma elem_tabulate r c f i j :
  i < r → j < c → elem {| data := tabulate r c f |} i j = f i j.
Proof.
  intros Hi Hj. unfold elem. simpl.
  rewrite (nth_lookup_Some _ _ _ _ (lookup_tabulate r c f i Hi)).
  apply nth_lookup_Some. rewrite list_lookup_fmap.
  by rewrite lookup_seq_lt.
Qed.

Lemma tabulate_ext r c (f g : nat → nat → F) :
  (∀ i j, i < r → j < c → f i j = g i j) → tabulate r c f = tabulate r c g.
Proof.
  intros Hfg. unfold tabulate. apply list_fmap_ext. intros ? i Hi.
  apply lookup_seq in Hi as [-> Hi]. apply list_fmap_ext. intros ? j Hj.
  apply lookup_seq in Hj as [-> Hj]. by apply Hfg.
Qed.

Lemma item_tabulate r c f i j :
  i < r → j < c → item (tabulate r c f) i j = Ok (f i j).
Proof.
  intros Hi Hj. apply (item_lookup _ _ _ (f i <$> seq 0 c)).
  - by apply lookup_tabulate.
  - rewrite list_lookup_fmap. by rewrite lookup_seq_lt.
Qed.

(** A valid matrix is the table of its elements. *)
Lemma valid_data_tabulate m :
  valid m → data m = tabulate (rows m) (cols m) (elem m).
Proof.
  intros Hv. apply list_eq. intros i.
  destruct (decide (i < rows m)) as [Hi|Hi].
  - rewrite lookup_tabulate by done.
    destruct (lookup_lt_is_Some_2 (data m) i Hi) as [row Hrow].
    rewrite Hrow. f_equal. apply list_eq. intros j.
    pose proof (valid_row_length m i row Hv Hrow) as Hlen.
    rewrite list_lookup_fmap.
    destruct (decide (j < cols m)) as [Hj|Hj].
    + rewrite lookup_seq_lt by done. simpl.
      assert (j < length row) as Hj' by lia.
      destruct (lookup_lt_is_Some_2 row j Hj') as [x Hx].
      rewrite Hx. f_equal. unfold elem.
      rewrite (nth_lookup_Some _ _ _ _ Hrow).
      by rewrite (nth_lookup_Some _ _ _ _ Hx).
    + rewrite lookup_seq_ge by lia. simpl.
      apply lookup_ge_None. lia.
  - rewrite (proj2 (lookup_ge_None _ _)) by (unfold rows in Hi; lia).
    symmetry. apply lookup_ge_None. rewrite length_tabulate. lia.
Qed.

(** Nested comprehensions and nested appending loops build tables. *)
Lemma comprehension_tabulate (body : nat → nat → result F) r c f :
  (∀ i j, i < r → j < c → body i j = Ok (f i j)) →
  comprehension (λ i, comprehension (body i) (range c)) (range r)
    = Ok (tabulate r c f).
Proof.
  intros Hb. unfold tabulate.
  apply (comprehension_Ok _ (λ i, f i <$> seq 0 c)).
  intros i Hi. apply elem_of_seq in Hi.
  apply comprehension_Ok. intros j Hj. apply elem_of_seq in Hj.
  apply Hb; lia.
Qed.

Lemma for_in_tabulate (body : nat → list F → nat → result (list F)) r c f :
  (∀ i j row, i < r → j < c → body i row j = Ok (row ++ [f i j])) →
  for_in (range r) (λ acc i,
      row ← for_in (range c) (body i) []; Ok (acc ++ [row])) []
    = Ok (tabulate r c f).
Proof.
  intros Hb. unfold tabulate.
  apply (for_in_append_Ok _ (λ i, f i <$> seq 0 c) (range r) []).
  intros acc i Hi. apply elem_of_seq in Hi.
  rewrite (for_in_append_Ok _ (f i) (range c) []); [done|].
  intros row j Hj. apply elem_of_seq in Hj. apply Hb; lia.
Qed.

End Validity.

(** ** What the operations build on valid matrices *)

Section Operations.
Context {F : Type} `{Number F}.
Implicit Types (m a b : Matrix F).

Lemma transpose_unfold m :
  valid m →
  transpose m =
    Matrix_new (tabulate (cols m) (rows m) (λ i j, elem m j i)).
Proof.
  intros Hv. unfold transpose.
  rewrite (comprehension_tabulate _ _ _ (λ i j, elem m j i)); [done|].
  intros i j Hi Hj. by apply item_valid.
Qed.

Lemma transpose_columns m :
  valid m → 0 < cols m →
  transpose m =
    Ok {| data := tabulate (cols m) (rows m) (λ i j, elem m j i) |}.
Proof.
  intros Hv Hc. rewrite transpose_unfold by done.
  by apply Matrix_new_valid, valid_tabulate.
Qed.

Lemma transpose_no_columns m :
  valid m → cols m = 0 →
  transpose m = Err (ValueError "Matrix cannot be empty").
Proof. intros Hv Hc. rewrite transpose_unfold by done. by rewrite Hc. Qed.

Lemma Matrix_add_unfold a b :
  valid a → valid b → rows a = rows b → cols a = cols b →
  Matrix_add a b =
    Ok {| data := tabulate (rows a) (cols a)
                    (λ i j, add (elem a i j) (elem b i j)) |}.
Proof.
  intros Ha Hb Hr Hc. unfold Matrix_add.
  rewrite decide_False by (intros [?|?]; done).
  rewrite (comprehension_tabulate _ _ _
             (λ i j, add (elem a i j) (elem b i j))).
  - simpl. apply Matrix_new_valid, valid_tabulate. by apply valid_rows_pos.
  - intros i j Hi Hj. rewrite (item_valid a) by done.
    by rewrite (item_valid b) by (done || lia).
Qed.

Lemma Matrix_mul_unfold m scalar :
  valid m →
  Matrix_mul m scalar =
    Ok {| data := tabulate (rows m) (cols m)
                    (λ i j, mul (elem m i j) scalar) |}.
Proof.
  intros Hv. unfold Matrix_mul.
  rewrite (comprehension_tabulate _ _ _ (λ i j, mul (elem m i j) scalar)).
  - simpl. apply Matrix_new_valid, valid_tabulate. by apply valid_rows_pos.
  - intros i j Hi Hj. by rewrite item_valid.
Qed.

Lemma multiply_matrices_unfold a b :
  valid a → valid b → cols a = rows b →
  multiply_matrices a b =
    Ok {| data := tabulate (rows a) (cols b) (dot a b) |}.
Proof.
  intros Ha Hb Hc. unfold multiply_matrices.
  rewrite decide_False by (by intros ?).
  rewrite (for_in_tabulate _ _ _ (dot a b)).
  - simpl. apply Matrix_new_valid, valid_tabulate. by apply valid_rows_pos.
  - intros i j row Hi Hj.
    rewrite (comprehension_Ok _ (λ k, mul (elem a i k) (elem b k j))); [done|].
    intros k Hk. apply elem_of_seq in Hk.
    rewrite (item_valid a) by (done || lia).
    by rewrite (item_valid b) by (done || lia).
Qed.

Lemma create_identity_matrix_unfold (size : Z) :
  (1 ≤ size)%Z →
  create_identity_matrix size =
    Ok {| data := tabulate (Z.to_nat size) (Z.to_nat size) kronecker |}.
Proof.
  intros Hs. unfold create_identity_matrix.
  rewrite decide_False by lia.
  rewrite (for_in_tabulate _ _ _ kronecker); [|done].
  simpl. apply Matrix_new_valid, valid_tabulate. lia.
Qed.

End Operations.

(** ** The determinant *)

Lemma filter_all {A : Type} (P : A → Prop) `{∀ x, Decision (P x)} (l : list A) :
  (∀ x, x ∈ l → P x) → filter P l = l.
Proof.
  induction l as [|x l IH]; intros HP; [done|].
  rewrite filter_cons_True by (apply HP; left).
  f_equal. apply IH. intros y Hy. apply HP. by right.
Qed.

Lemma filter_ne_seq s n col :
  filter (λ j, j ≠ s + col) (seq s n) = delete col (seq s n).
Proof.
  revert s col. induction n as [|n IH]; intros s col; [by destruct col|].
  simpl seq. destruct col as [|col].
  - rewrite filter_cons_False by lia. simpl.
    apply filter_all. intros j Hj. apply elem_of_seq in Hj. lia.
  - rewrite filter_cons_True by lia. simpl. f_equal.
    rewrite <- IH. apply list_filter_iff. intros j. lia.
Qed.

Lemma even_mod2 (n : nat) : n `mod` 2 = 0 ↔ Nat.even n = true.
Proof.
  rewrite Nat.even_spec. split.
  - intros Hm. exists (n `div` 2). pose proof (Nat.div_mod_eq n 2). lia.
  - intros [k ->]. rewrite Nat.mul_comm. apply Nat.Div0.mod_mul.
Qed.

Lemma for_in_outcome_ext {A S : Type} (body body' : S → A → outcome S)
    (xs : list A) (s : S) :
  (∀ s' x, x ∈ xs → body s' x = body' s' x) →
  for_in xs body s = for_in xs body' s.
Proof.
  revert s. induction xs as [|x xs IH]; intros s Hb; simpl; [done|].
  rewrite Hb by left. destruct (body' s x) as [[s'|e]|]; simpl; try done.
  apply IH. intros s'' y Hy. apply Hb. by right.
Qed.


Lemma for_in_outcome_mono {A S : Type} (body body' : S → A → outcome S)
    (xs : list A) (s : S) (r : result S) :
  (∀ s' x r', x ∈ xs → body s' x = Done r' → body' s' x = Done r') →
  for_in xs body s = Done r → for_in xs body' s = Done r.
Proof.
  revert s. induction xs as [|x xs IH]; intros s Hb; simpl; [done|].
  destruct (body s x) as [[s'|e]|] eqn:E; simpl; [| |done].
  - rewrite (Hb s x (Ok s')) by (done || left). simpl.
    apply IH. intros s'' y r' Hy. apply Hb. by right.
  - by rewrite (Hb s x (Err e)) by (done || left).
Qed.

Section Determinant.
Context {F : Type} `{Number F}.
Implicit Types (m : Matrix F).

Lemma rows_minor m col : rows (minor m col) = rows m - 1.
Proof. unfold rows, minor. simpl. by rewrite length_fmap, length_drop. Qed.

Lemma cols_minor m col :
  valid m → 2 ≤ rows m → col < cols m → cols (minor m col) = cols m - 1.
Proof.
  intros Hv Hr Hc. unfold rows in Hr.
  destruct (data m) as [|r0 [|r1 d]] eqn:Hd; simpl in Hr; [lia..|].
  assert (length r1 = cols m) as Hlen
    by (apply (valid_row_length m 1 r1 Hv); by rewrite Hd).
  unfold cols at 1, minor. rewrite Hd. simpl.
  rewrite length_delete; [lia|]. apply lookup_lt_is_Some_2. lia.
Qed.

Lemma valid_minor m col :
  valid m → 2 ≤ rows m → col < cols m → valid (minor m col).
Proof.
  intros Hv Hr Hc. apply valid_invariant. split.
  - rewrite rows_minor. lia.
  - rewrite cols_minor by done. unfold minor. simpl.
    apply Forall_fmap, Forall_forall. intros row Hrow. simpl.
    apply list_elem_of_lookup in Hrow as [i Hi].
    rewrite lookup_drop in Hi.
    pose proof (valid_row_length m _ row Hv Hi) as Hlen.
    rewrite length_delete; [lia|]. apply lookup_lt_is_Some_2. lia.
Qed.

(** The loop of [matrix_determinant] builds the minor. *)
Lemma submatrix_data_minor m col :
  valid m → submatrix_data m col = Ok (data (minor m col)).
Proof.
  intros Hv. unfold submatrix_data, range2.
  rewrite (for_in_append_Ok _
             (λ i, delete col (elem m i <$> seq 0 (cols m)))
             (seq 1 (rows m - 1)) []).
  - simpl. f_equal. unfold minor. simpl.
    replace (drop 1 (data m))
      with (drop 1 (tabulate (rows m) (cols m) (elem m)))
      by (by rewrite <- valid_data_tabulate).
    unfold tabulate. rewrite <- fmap_drop, drop_seq.
    by rewrite <- list_fmap_compose.
  - intros acc i Hi. apply elem_of_seq in Hi.
    rewrite (for_in_filter_Ok _ (elem m i) (λ j, j ≠ col) (range (cols m)) []).
    + simpl. do 3 f_equal. unfold range.
      rewrite <- list_fmap_delete. f_equal.
      apply (filter_ne_seq 0 (cols m) col).
    + intros row j Hj. apply elem_of_seq in Hj.
      destruct (decide (j ≠ col)); [|done].
      by rewrite item_valid by (done || lia).
Qed.

Lemma loop_alternating (t : nat → F) a n s :
  for_in (seq a n) (λ determinant col,
      Done (Ok (if Nat.even col then add determinant (t col)
                else sub determinant (t col)))) s
    = Done (Ok (alternating_sum_from a s (t <$> seq a n))).
Proof.
  revert a s. induction n as [|n IH]; intros a s; simpl; [done|].
  apply IH.
Qed.

Lemma laplace_step n m :
  laplace (S (S (S n))) m =
    alternating_sum (cofactors m (λ col, laplace (S (S n)) (minor m col))).
Proof. done. Qed.

(** With a budget of at least [rows], the determinant of a valid square
    matrix is its Laplace expansion. *)
Lemma matrix_determinant_fuel_laplace fuel m :
  valid m → rows m = cols m → rows m ≤ fuel →
  matrix_determinant_fuel fuel m = Done (Ok (laplace (rows m) m)).
Proof.
  revert m. induction fuel as [|fuel IH]; intros m Hv Hsq Hfuel.
  { pose proof (valid_rows_pos m Hv). lia. }
  cbn [matrix_determinant_fuel].
  rewrite decide_False by (by intros ?).
  destruct (decide (rows m = 1)) as [H1|H1].
  { rewrite item_valid by (done || lia). by rewrite H1. }
  destruct (decide (rows m = 2)) as [H2|H2].
  { rewrite !item_valid by (done || lia). by rewrite H2. }
  pose proof (valid_rows_pos m Hv) as Hpos.
  destruct (rows m) as [|[|[|k]]] eqn:Hr; [lia..|].
  rewrite laplace_step. unfold alternating_sum, cofactors, range.
  rewrite <- (loop_alternating
    (λ col, mul (elem m 0 col) (laplace (S (S k)) (minor m col)))).
  apply for_in_outcome_ext. intros s col Hcol. apply elem_of_seq in Hcol.
  rewrite submatrix_data_minor by done. cbn [mbind outcome_bind].
  rewrite (Matrix_new_valid (data (minor m col)))
    by (apply valid_minor; done || lia).
  cbn [mbind outcome_bind].
  rewrite item_valid by (done || lia). cbn [mbind outcome_bind].
  change {| data := data (minor m col) |} with (minor m col).
  rewrite IH.
  - cbn [mbind outcome_bind]. rewrite rows_minor, Hr.
    replace (S (S (S k)) - 1) with (S (S k)) by lia.
    destruct (decide (col `mod` 2 = 0)) as [He|He].
    + apply even_mod2 in He. by rewrite He.
    + destruct (Nat.even col) eqn:Ee; [|done].
      apply even_mod2 in Ee. done.
  - apply valid_minor; done || lia.
  - rewrite rows_minor, cols_minor by (done || lia). lia.
  - rewrite rows_minor. lia.
Qed.

(** Whatever the matrix, a budget above [rows] is never used up. *)
Lemma matrix_determinant_fuel_finishes fuel m :
  rows m < fuel → matrix_determinant_fuel fuel m ≠ OutOfFuel.
Proof.
  revert m. induction fuel as [|fuel IH]; intros m Hfuel; [lia|].
  cbn [matrix_determinant_fuel].
  destruct (decide (rows m ≠ cols m)) as [Hsq|Hsq]; [done|].
  apply dec_stable in Hsq.
  destruct (decide (rows m = 1)); [done|].
  destruct (decide (rows m = 2)); [done|].
  apply for_in_finishes. intros s col Hcol. apply elem_of_seq in Hcol.
  destruct (submatrix_data m col) as [sd|e] eqn:Hsd; [|done].
  cbn [mbind outcome_bind].
  destruct (Matrix_new sd) as [submatrix|e] eqn:Hnew; [|done].
  cbn [mbind outcome_bind].
  destruct (item (data m) 0 col) as [x|e]; [|done].
  cbn [mbind outcome_bind].
  assert (rows submatrix < fuel) as Hdec.
  { apply Matrix_new_Ok in Hnew as [-> _]. unfold rows at 1. simpl.
    apply for_in_append_length in Hsd.
    - unfold range2 in Hsd. rewrite length_seq in Hsd. simpl in Hsd. lia.
    - intros acc i r'.
      destruct (for_in _ _ _) as [row|e]; simpl; [|done].
      intros [= <-]. rewrite length_app. simpl. lia. }
  specialize (IH submatrix Hdec).
  destruct (matrix_determinant_fuel fuel submatrix) as [[d|e]|]; [|done..].
  cbn [mbind outcome_bind]. by destruct (decide _).
Qed.

(** A run that finishes gives the same result under any larger budget. *)
Lemma matrix_determinant_fuel_mono fuel fuel' m r :
  fuel ≤ fuel' →
  matrix_determinant_fuel fuel m = Done r →
  matrix_determinant_fuel fuel' m = Done r.
Proof.
  revert fuel' m r. induction fuel as [|fuel IH]; intros fuel' m r Hle; [done|].
  destruct fuel' as [|fuel']; [lia|]. cbn [matrix_determinant_fuel].
  destruct (decide (rows m ≠ cols m)); [done|].
  destruct (decide (rows m = 1)); [done|].
  destruct (decide (rows m = 2)); [done|].
  apply for_in_outcome_mono. intros s col r' _.
  destruct (submatrix_data m col) as [sd|e]; [|done].
  cbn [mbind outcome_bind].
  destruct (Matrix_new sd) as [submatrix|e]; [|done].
  cbn [mbind outcome_bind].
  destruct (item (data m) 0 col) as [x|e]; [|done].
  cbn [mbind outcome_bind].
  destruct (matrix_determinant_fuel fuel submatrix) as [rd|] eqn:E; [|done].
  by rewrite (IH fuel' submatrix rd) by (done || lia).
Qed.

Lemma matrix_determinant_fuel_enough fuel m :
  rows m < fuel → matrix_determinant_fuel fuel m = matrix_determinant m.
Proof.
  intros Hfuel. unfold matrix_determinant.
  destruct (matrix_determinant_fuel (S (rows m)) m) as [r|] eqn:E.
  - apply (matrix_determinant_fuel_mono (S (rows m))); [lia|done].
  - exfalso. by apply (matrix_determinant_fuel_finishes (S (rows m)) m); [lia|].
Qed.

End Determinant.

(** ** The identity matrix under exact arithmetic *)

Section Identity.
Context {F : Type} `{ExactArith F}.
Implicit Types (m : Matrix F) (x : nat → F).

(** Summing [kronecker i k * x k] over [k < n] picks [x i]. *)
Lemma sum_kronecker_l x i n :
  py_sum ((λ k, mul (kronecker i k) (x k)) <$> seq 0 n)
    = if decide (i < n) then x i else zero_f.
Proof.
  unfold py_sum. induction n as [|n IH].
  - rewrite decide_False by lia. apply zero_zero_f.
  - rewrite seq_S, fmap_app, foldl_app, IH. simpl. unfold kronecker.
    destruct (decide (i = n)) as [->|Hne].
    + rewrite decide_False, decide_True by lia.
      by rewrite mul_one_l, add_zero_l.
    + rewrite mul_zero_l, add_zero_r.
      destruct (decide (i < n)).
      * by rewrite decide_True by lia.
      * by rewrite decide_False by lia.
Qed.

Lemma sum_kronecker_r x j n :
  py_sum ((λ k, mul (x k) (kronecker k j)) <$> seq 0 n)
    = if decide (j < n) then x j else zero_f.
Proof.
  unfold py_sum. induction n as [|n IH].
  - rewrite decide_False by lia. apply zero_zero_f.
  - rewrite seq_S, fmap_app, foldl_app, IH. simpl. unfold kronecker.
    destruct (decide (n = j)) as [->|Hne].
    + rewrite decide_False, decide_True by lia.
      by rewrite mul_one_r, add_zero_l.
    + rewrite mul_zero_r, add_zero_r.
      destruct (decide (j < n)).
      * by rewrite decide_True by lia.
      * by rewrite decide_False by lia.
Qed.

Lemma multiply_identity_l m :
  valid m →
  multiply_matrices
    {| data := tabulate (rows m) (rows m) kronecker |} m = Ok m.
Proof.
  intros Hv. pose proof (valid_rows_pos m Hv) as Hpos.
  rewrite multiply_matrices_unfold.
  - rewrite rows_tabulate.
    transitivity (Ok {| data := data m |}); [|by destruct m].
    do 2 f_equal. etrans; [|symmetry; by apply valid_data_tabulate].
    apply tabulate_ext. intros i j Hi Hj. unfold dot, range.
    rewrite cols_tabulate by done.
    rewrite (list_fmap_ext _ (λ k, mul (kronecker i k) (elem m k j))).
    + rewrite sum_kronecker_l. by rewrite decide_True.
    + intros ? k Hk. apply lookup_seq in Hk as [-> Hk].
      by rewrite elem_tabulate.
  - by apply valid_tabulate.
  - done.
  - by rewrite cols_tabulate.
Qed.

Lemma multiply_identity_r m :
  valid m → 0 < cols m →
  multiply_matrices m
    {| data := tabulate (cols m) (cols m) kronecker |} = Ok m.
Proof.
  intros Hv Hc. rewrite multiply_matrices_unfold.
  - rewrite cols_tabulate by done.
    transitivity (Ok {| data := data m |}); [|by destruct m].
    do 2 f_equal. etrans; [|symmetry; by apply valid_data_tabulate].
    apply tabulate_ext. intros i j Hi Hj. unfold dot, range.
    rewrite (list_fmap_ext _ (λ k, mul (elem m i k) (kronecker k j))).
    + rewrite sum_kronecker_r. by rewrite decide_True.
    + intros ? k Hk. apply lookup_seq in Hk as [-> Hk].
      by rewrite elem_tabulate.
  - done.
  - by apply valid_tabulate.
  - by rewrite rows_tabulate.
Qed.

End Identity.

(** ** The claims *)

(** C1. [matrix_determinant] raises the [ValueError] of non-square input
    when [rows != cols]; on a 1x1 matrix it returns the single element, on
    [[a, b], [c, d]] it returns [a*d - b*c], and on a valid n x n matrix
    with n >= 3 it returns the expansion along the first row: the terms
    [m[0][col] * determinant(minor)] are added for even [col] and subtracted
    for odd [col], the minor being the valid (n-1) x (n-1) matrix without
    row 0 and column [col]. *)
Theorem matrix_determinant_spec {F : Type} `{Number F} (m : Matrix F) :
  (rows m ≠ cols m →
     matrix_determinant m =
       Done (Err (ValueError
         "Determinant can only be calculated for square matrices"))) ∧
  (∀ x, data m = [[x]] → matrix_determinant m = Done (Ok x)) ∧
  (∀ a b c d, data m = [[a; b]; [c; d]] →
     matrix_determinant m = Done (Ok (sub (mul a d) (mul b c)))) ∧
  (valid m → rows m = cols m → 3 ≤ rows m →
     ∃ dets : nat → F,
       (∀ col, col < cols m →
          valid (minor m col) ∧
          rows (minor m col) = rows m - 1 ∧
          cols (minor m col) = cols m - 1 ∧
          matrix_determinant (minor m col) = Done (Ok (dets col))) ∧
       matrix_determinant m = Done (Ok (alternating_sum (cofactors m dets)))).
Proof.
  split; [|split; [|split]].
  - intros Hne. unfold matrix_determinant. cbn [matrix_determinant_fuel].
    by rewrite decide_True.
  - intros x Hd. destruct m as [d]. simpl in Hd. by subst d.
  - intros a b c d Hd. destruct m as [d']. simpl in Hd. by subst d'.
  - intros Hv Hsq Hn.
    exists (λ col, laplace (rows m - 1) (minor m col)). split.
    + intros col Hcol.
      assert (valid (minor m col)) as Hvm by (apply valid_minor; done || lia).
      repeat split; [done|apply rows_minor|apply cols_minor; done || lia|].
      unfold matrix_determinant.
      rewrite matrix_determinant_fuel_laplace.
      * by rewrite rows_minor.
      * done.
      * rewrite rows_minor, cols_minor by (done || lia). lia.
      * lia.
    + unfold matrix_determinant.
      rewrite matrix_determinant_fuel_laplace by (done || lia).
      destruct (rows m) as [|[|[|k]]]; [lia..|].
      by rewrite laplace_step.
Qed.

Lemma matrix_determinant_spec_witness :
  matrix_determinant m23 =
    Done (Err (ValueError
      "Determinant can only be calculated for square matrices")) ∧
  matrix_determinant m22 = Done (Ok (1 * 4 - 2 * 3)%Z) ∧
  ∃ dets : nat → Z,
    (∀ col, col < cols m33 →
       valid (minor m33 col) ∧
       rows (minor m33 col) = rows m33 - 1 ∧
       cols (minor m33 col) = cols m33 - 1 ∧
       matrix_determinant (minor m33 col) = Done (Ok (dets col))) ∧
    matrix_determinant m33 = Done (Ok (alternating_sum (cofactors m33 dets))).
Proof.
  split; [|split].
  - apply (proj1 (matrix_determinant_spec m23)). vm_compute. lia.
  - exact (proj1 (proj2 (proj2 (matrix_determinant_spec m22)))
             1 2 3 4 eq_refl)%Z.
  - apply (proj2 (proj2 (proj2 (matrix_determinant_spec m33)))).
    + reflexivity.
    + reflexivity.
    + vm_compute. lia.
Defined.

(** C2. [multiply_matrices a b] raises the [ValueError] that names both
    shapes whenever [a.cols != b.rows]; for valid [a] and [b] with
    [a.cols == b.rows] it returns a matrix of shape [(a.rows, b.cols)] whose
    element at [(i, j)] is the sum over [k] in [[0, a.cols)] of
    [a[i][k] * b[k][j]]. *)
Theorem multiply_matrices_spec {F : Type} `{Number F} (a b : Matrix F) :
  (cols a ≠ rows b →
     multiply_matrices a b =
       Err (ValueError
         ("Cannot multiply matrices: "
          +:+ pretty (rows a) +:+ "x" +:+ pretty (cols a) +:+ " and "
          +:+ pretty (rows b) +:+ "x" +:+ pretty (cols b) +:+ ". "
          +:+ "Number of columns in first matrix must equal number of rows in second matrix."))) ∧
  (valid a → valid b → cols a = rows b →
     ∃ c, multiply_matrices a b = Ok c ∧ valid c ∧
       rows c = rows a ∧ cols c = cols b ∧
       ∀ i j, i < rows a → j < cols b →
         item (data c) i j =
           Ok (py_sum ((λ k, mul (elem a i k) (elem b k j))
                         <$> range (cols a)))).
Proof.
  split.
  - intros Hne. unfold multiply_matrices. by rewrite decide_True.
  - intros Ha Hb Hc. pose proof (valid_rows_pos a Ha) as Hpos.
    eexists. split; [by apply multiply_matrices_unfold|].
    split; [by apply valid_tabulate|].
    split; [apply rows_tabulate|].
    split; [by apply cols_tabulate|].
    intros i j Hi Hj. simpl. by rewrite item_tabulate.
Qed.

Lemma multiply_matrices_spec_witness :
  multiply_matrices m22 m33 =
    Err (ValueError "Cannot multiply matrices: 2x2 and 3x3. Number of columns in first matrix must equal number of rows in second matrix.") ∧
  ∃ c, multiply_matrices m22 m22' = Ok c ∧ valid c ∧
    rows c = 2 ∧ cols c = 2 ∧
    ∀ i j, i < 2 → j < 2 →
      item (data c) i j =
        Ok (py_sum ((λ k, mul (elem m22 i k) (elem m22' k j)) <$> range 2)).
Proof.
  split.
  - apply (proj1 (multiply_matrices_spec m22 m33)). vm_compute. lia.
  - apply (proj2 (multiply_matrices_spec m22 m22')); reflexivity.
Defined.

(** C3, as the code has it. For every valid matrix with at least one
    column, [transpose] does not raise and returns a valid matrix of shape
    [(cols, rows)] with [result[i][j] = m[j][i]] for all [i < cols] and
    [j < rows]. *)
Theorem transpose_spec {F : Type} `{Number F} (m : Matrix F) :
  valid m → 0 < cols m →
  ∃ t, transpose m = Ok t ∧ valid t ∧
    rows t = cols m ∧ cols t = rows m ∧
    ∀ i j, i < cols m → j < rows m →
      ∃ x, item (data t) i j = Ok x ∧ item (data m) j i = Ok x.
Proof.
  intros Hv Hc. eexists. split; [by apply transpose_columns|].
  split; [by apply valid_tabulate|].
  split; [apply rows_tabulate|].
  split; [by apply cols_tabulate|].
  intros i j Hi Hj. exists (elem m j i). simpl.
  split; [by rewrite item_tabulate|by apply item_valid].
Qed.

Lemma transpose_spec_witness :
  ∃ t, transpose m23 = Ok t ∧ valid t ∧
    rows t = 3 ∧ cols t = 2 ∧
    ∀ i j, i < 3 → j < 2 →
      ∃ x, item (data t) i j = Ok x ∧ item (data m23) j i = Ok x.
Proof. apply (transpose_spec m23); [reflexivity|vm_compute; lia]. Defined.

(** C3 fails as stated: the constructor accepts [Matrix([[]])], and its
    [transpose] raises. *)
Lemma transpose_zero_columns_raises :
  Matrix_new [[]] = Ok m10 ∧
  transpose m10 = Err (ValueError "Matrix cannot be empty").
Proof. split; reflexivity. Qed.

(** C4, as the code has it. Over exact arithmetic, for every valid matrix
    [m], [identity(m.rows).multiply(m)] is [m]; and when [m] has at least
    one column, [m.multiply(identity(m.cols))] is [m]. *)
Theorem identity_multiply {F : Type} `{ExactArith F} (m : Matrix F) :
  valid m →
  (I ← create_identity_matrix (Z.of_nat (rows m)); multiply_matrices I m)
    = Ok m ∧
  (0 < cols m →
   (I ← create_identity_matrix (Z.of_nat (cols m)); multiply_matrices m I)
     = Ok m).
Proof.
  intros Hv. pose proof (valid_rows_pos m Hv) as Hpos. split.
  - rewrite create_identity_matrix_unfold by lia. rewrite Nat2Z.id.
    by apply multiply_identity_l.
  - intros Hc. rewrite create_identity_matrix_unfold by lia.
    rewrite Nat2Z.id. by apply multiply_identity_r.
Qed.

Lemma identity_multiply_witness :
  (I ← create_identity_matrix (Z.of_nat (rows m23)); multiply_matrices I m23)
    = Ok m23 ∧
  (I ← create_identity_matrix (Z.of_nat (cols m23)); multiply_matrices m23 I)
    = Ok m23.
Proof.
  destruct (identity_multiply m23) as [Hl Hr]; [reflexivity|].
  split; [exact Hl|apply Hr; vm_compute; lia].
Defined.

(** C4 fails as stated: [Matrix([[]])] is valid and has no column, so
    [identity(m.cols())] raises. *)
Lemma identity_multiply_zero_columns_raises :
  valid m10 ∧
  (I ← create_identity_matrix (Z.of_nat (cols m10)); multiply_matrices m10 I)
    = Err (ValueError "Matrix size must be at least 1").
Proof. split; reflexivity. Qed.

(** C5, as the code has it. For every valid matrix [m] with at least one
    column, [m.transpose().transpose()] is [m]: the same shape and the same
    elements. *)
Theorem transpose_transpose {F : Type} `{Number F} (m : Matrix F) :
  valid m → 0 < cols m →
  (t ← transpose m; transpose t) = Ok m.
Proof.
  intros Hv Hc. pose proof (valid_rows_pos m Hv) as Hpos.
  rewrite transpose_columns by done. cbn [mbind result_bind].
  rewrite transpose_columns.
  - transitivity (Ok {| data := data m |}); [|by destruct m].
    do 2 f_equal. rewrite rows_tabulate, cols_tabulate by done.
    etrans; [|symmetry; by apply valid_data_tabulate].
    apply tabulate_ext. intros i j Hi Hj. by rewrite elem_tabulate.
  - by apply valid_tabulate.
  - by rewrite cols_tabulate.
Qed.

Lemma transpose_transpose_witness :
  (t ← transpose m23; transpose t) = Ok m23.
Proof. apply (transpose_transpose m23); [reflexivity|vm_compute; lia]. Defined.

(** C5 fails as stated: on the valid [Matrix([[]])] the first [transpose]
    already raises. *)
Lemma transpose_transpose_zero_columns_raises :
  valid m10 ∧
  (t ← transpose m10; transpose t) = Err (ValueError "Matrix cannot be empty").
Proof. split; reflexivity. Qed.

(** C6. The constructor raises the [ValueError] of an empty matrix on a
    grid without rows, and the [ValueError] of unequal rows when some row
    is not as long as the first one; in particular on [[[1, 2], [3]]]. *)
Theorem Matrix_new_rejects {F : Type} :
  Matrix_new (@nil (list F)) = Err (ValueError "Matrix cannot be empty") ∧
  (∀ (row0 row : list F) (d : list (list F)),
     row ∈ d → length row ≠ length row0 →
     Matrix_new (row0 :: d) =
       Err (ValueError "All rows must have the same length")) ∧
  Matrix_new [[1; 2]; [3]]%Z =
    Err (ValueError "All rows must have the same length").
Proof.
  split; [done|]. split; [|done].
  intros row0 row d Hin Hlen. unfold Matrix_new.
  rewrite post_init_spec. simpl.
  rewrite decide_False; [done|].
  intros Hall. apply Forall_cons in Hall as [_ Hall].
  apply (proj1 (Forall_forall _ _) Hall) in Hin. done.
Qed.

Lemma Matrix_new_rejects_witness :
  Matrix_new [[1; 2]; [3]]%Z =
    Err (ValueError "All rows must have the same length").
Proof.
  apply (proj1 (proj2 (@Matrix_new_rejects Z)) [1; 2]%Z [3]%Z [[3]]%Z).
  - apply list_elem_of_here.
  - simpl. lia.
Defined.

(** C7. [create_identity_matrix size] raises the [ValueError] of a size
    below 1 for every [size <= 0]; for every [size >= 1] it returns a valid
    [size] by [size] matrix with [1.0] at [(i, i)] and [0.0] elsewhere. *)
Theorem create_identity_matrix_spec {F : Type} `{Number F} (size : Z) :
  ((size ≤ 0)%Z →
     create_identity_matrix (F := F) size =
       Err (ValueError "Matrix size must be at least 1")) ∧
  ((1 ≤ size)%Z →
     ∃ I : Matrix F, create_identity_matrix size = Ok I ∧ valid I ∧
       rows I = Z.to_nat size ∧ cols I = Z.to_nat size ∧
       ∀ i j, i < Z.to_nat size → j < Z.to_nat size →
         item (data I) i j = Ok (if decide (i = j) then one_f else zero_f)).
Proof.
  split.
  - intros Hs. unfold create_identity_matrix. by rewrite decide_True by lia.
  - intros Hs. eexists. split; [by apply create_identity_matrix_unfold|].
    split; [apply valid_tabulate; lia|].
    split; [apply rows_tabulate|].
    split; [apply cols_tabulate; lia|].
    intros i j Hi Hj. simpl. by rewrite item_tabulate.
Qed.

Lemma create_identity_matrix_spec_witness :
  create_identity_matrix (F := Z) (-1) =
    Err (ValueError "Matrix size must be at least 1") ∧
  ∃ I : Matrix Z, create_identity_matrix 3 = Ok I ∧ valid I ∧
    rows I = 3 ∧ cols I = 3 ∧
    ∀ i j, i < 3 → j < 3 →
      item (data I) i j = Ok (if decide (i = j) then 1%Z else 0%Z).
Proof.
  split.
  - apply (proj1 (create_identity_matrix_spec (-1))). lia.
  - exact (proj2 (create_identity_matrix_spec (F := Z) 3) ltac:(lia)).
Defined.

(** C8. [matrix_determinant] terminates: whatever the matrix, a recursion
    budget above [rows] is never used up and the outcome does not depend on
    it; on a valid square matrix every budget of at least [rows] gives the
    same value; and for [rows >= 3] each
    recursive call is on the submatrix built in the loop, which has one row
    and one column less.  The other operations are loops over finite
    ranges, total by their definition. *)
Theorem matrix_determinant_terminates {F : Type} `{Number F} (m : Matrix F) :
  (∀ fuel, rows m < fuel →
     matrix_determinant_fuel fuel m ≠ OutOfFuel ∧
     matrix_determinant_fuel fuel m = matrix_determinant m) ∧
  (valid m → rows m = cols m →
     (∃ v, ∀ fuel, rows m ≤ fuel →
        matrix_determinant_fuel fuel m = Done (Ok v)) ∧
     (3 ≤ rows m → ∀ col, col < cols m →
        ∃ submatrix,
          (sd ← submatrix_data m col; Matrix_new sd) = Ok submatrix ∧
          rows submatrix = rows m - 1 ∧ cols submatrix = cols m - 1 ∧
          rows submatrix < rows m)).
Proof.
  split.
  { intros fuel Hfuel. split.
    - by apply matrix_determinant_fuel_finishes.
    - by apply matrix_determinant_fuel_enough. }
  intros Hv Hsq. split.
  - exists (laplace (rows m) m). intros fuel Hfuel.
    by apply matrix_determinant_fuel_laplace.
  - intros Hn col Hcol. exists (minor m col).
    rewrite submatrix_data_minor by done. cbn [mbind result_bind].
    split; [apply Matrix_new_valid, valid_minor; done || lia|].
    rewrite rows_minor, cols_minor by (done || lia). lia.
Qed.

Lemma matrix_determinant_terminates_witness :
  (matrix_determinant_fuel 7 m33 ≠ OutOfFuel ∧
   matrix_determinant_fuel 7 m33 = matrix_determinant m33) ∧
  (∃ v, ∀ fuel, 3 ≤ fuel → matrix_determinant_fuel fuel m33 = Done (Ok v)) ∧
  ∃ submatrix,
    (sd ← submatrix_data m33 1; Matrix_new sd) = Ok submatrix ∧
    rows submatrix = 2 ∧ cols submatrix = 2 ∧ rows submatrix < 3.
Proof.
  destruct (matrix_determinant_terminates m33) as [Hfin Hsq].
  split; [apply Hfin; vm_compute; lia|].
  destruct Hsq as [Hv Hminor]; [reflexivity..|].
  split; [exact Hv|]. apply Hminor; vm_compute; lia.
Defined.

(** C9. The constructor accepts [n >= 1] rows of length zero (for [n = 1],
    [Matrix([[]])]): the matrix has [rows == n] and [cols == 0]. *)
Theorem Matrix_new_zero_columns {F : Type} (n : nat) :
  1 ≤ n →
  ∃ m : Matrix F,
    Matrix_new (replicate n []) = Ok m ∧ rows m = n ∧ cols m = 0.
Proof.
  intros Hn. exists {| data := replicate n [] |}.
  assert (cols {| data := replicate n (@nil F) |} = 0) as Hc
    by (destruct n; [lia|done]).
  split; [|split; [apply length_replicate|done]].
  apply Matrix_new_valid, valid_invariant. split.
  - unfold rows. simpl. rewrite length_replicate. lia.
  - rewrite Hc. apply Forall_forall. intros row Hrow.
    by apply elem_of_replicate_inv in Hrow as ->.
Qed.

Lemma Matrix_new_zero_columns_witness :
  ∃ m : Matrix Z, Matrix_new [[]] = Ok m ∧ rows m = 1 ∧ cols m = 0.
Proof. apply (Matrix_new_zero_columns 1). lia. Defined.

(** C10. The operations that return a matrix return one that satisfies
    the invariant of the constructor (at least one row, all rows of equal
    length): [+] on valid matrices of equal shape, [*] by any scalar,
    [multiply_matrices] on compatible shapes, [create_identity_matrix] for
    [size >= 1], and [transpose] of a matrix with at least one column. *)
Theorem operations_keep_invariant {F : Type} `{Number F} :
  (∀ a b : Matrix F, valid a → valid b → rows a = rows b → cols a = cols b →
     ∃ c, Matrix_add a b = Ok c ∧ invariant c) ∧
  (∀ (m : Matrix F) (scalar : F), valid m →
     ∃ c, Matrix_mul m scalar = Ok c ∧ Matrix_rmul m scalar = Ok c ∧
       invariant c) ∧
  (∀ a b : Matrix F, valid a → valid b → cols a = rows b →
     ∃ c, multiply_matrices a b = Ok c ∧ invariant c) ∧
  (∀ size : Z, (1 ≤ size)%Z →
     ∃ c : Matrix F, create_identity_matrix size = Ok c ∧ invariant c) ∧
  (∀ m : Matrix F, valid m → 0 < cols m →
     ∃ c, transpose m = Ok c ∧ invariant c).
Proof.
  split; [|split; [|split; [|split]]].
  - intros a b Ha Hb Hr Hc. eexists.
    split; [by apply Matrix_add_unfold|].
    apply valid_invariant, valid_tabulate. by apply valid_rows_pos.
  - intros m scalar Hv. eexists. unfold Matrix_rmul.
    split; [by apply Matrix_mul_unfold|]. split; [by apply Matrix_mul_unfold|].
    apply valid_invariant, valid_tabulate. by apply valid_rows_pos.
  - intros a b Ha Hb Hc. eexists.
    split; [by apply multiply_matrices_unfold|].
    apply valid_invariant, valid_tabulate. by apply valid_rows_pos.
  - intros size Hs. eexists.
    split; [by apply create_identity_matrix_unfold|].
    apply valid_invariant, valid_tabulate. lia.
  - intros m Hv Hc. eexists. split; [by apply transpose_columns|].
    by apply valid_invariant, valid_tabulate.
Qed.

Lemma operations_keep_invariant_witness :
  (∃ c, Matrix_add m22 m22' = Ok c ∧ invariant c) ∧
  (∃ c, Matrix_mul m22 2%Z = Ok c ∧ Matrix_rmul m22 2%Z = Ok c ∧
     invariant c) ∧
  (∃ c, multiply_matrices m23 m33 = Ok c ∧ invariant c) ∧
  (∃ c : Matrix Z, create_identity_matrix 3 = Ok c ∧ invariant c) ∧
  (∃ c, transpose m23 = Ok c ∧ invariant c).
Proof.
  destruct (@operations_keep_invariant Z _) as (Hadd & Hmul & Hprod & Hid & Htr).
  split; [apply Hadd; reflexivity|].
  split; [apply Hmul; reflexivity|].
  split; [apply Hprod; reflexivity|].
  split; [apply Hid; lia|].
  apply Htr; [reflexivity|vm_compute; lia].
Defined.

(** ** Further properties: the constructor and element access *)

Local Open Scope string_scope.
Local Open Scope list_scope.
Local Open Scope nat_scope.

(** X1. The constructor accepts exactly the grids with at least one row
    whose rows are all as long as the first one, and then the matrix holds
    the grid it was given: [rows] is the number of rows and every row has
    [cols] elements.  It raises nothing but its two [ValueError]s. *)
Theorem Matrix_new_accepts {F : Type} (d : list (list F)) :
  (∀ m, Matrix_new d = Ok m ↔
     m = {| data := d |} ∧
     ∃ row0 d', d = row0 :: d' ∧
       Forall (λ row, length row = length row0) d') ∧
  (∀ m, Matrix_new d = Ok m →
     rows m = length d ∧ ∀ i row, d !! i = Some row → length row = cols m) ∧
  (∀ e, Matrix_new d = Err e →
     e = ValueError "Matrix cannot be empty" ∨
     e = ValueError "All rows must have the same length").
Proof.
  split; [|split].
  - intros m. unfold Matrix_new. rewrite post_init_spec. simpl.
    destruct d as [|row0 d']; simpl.
    { split; [done|]. by intros (_ & ? & ? & ? & _). }
    destruct (decide _) as [Hall|Hall]; simpl.
    + split.
      * intros [= <-]. split; [done|]. exists row0, d'. split; [done|].
        by apply Forall_cons in Hall as [_ Hall].
      * by intros (-> & _).
    + split; [done|]. intros (_ & r & d'' & [= <- <-] & Hall').
      exfalso. apply Hall. by constructor.
  - intros m Hm. apply Matrix_new_Ok in Hm as [-> Hv]. split; [done|].
    intros i row Hi. by apply (valid_row_length {| data := d |} i).
  - intros e. unfold Matrix_new. rewrite post_init_spec. simpl.
    destruct d as [|row0 d']; simpl; [intros [= <-]; by left|].
    destruct (decide _); simpl; [done|]. intros [= <-]. by right.
Qed.

Lemma Matrix_new_accepts_witness :
  rows m23 = 2 ∧
  ∀ i row, data m23 !! i = Some row → length row = cols m23.
Proof.
  apply (proj1 (proj2 (Matrix_new_accepts (data m23))) m23). reflexivity.
Defined.

Lemma get_element_in_range {F : Type} `{Number F} (m : Matrix F) (i j : nat) :
  valid m → i < rows m → j < cols m →
  get_element m (Z.of_nat i) (Z.of_nat j) = Ok (elem m i j).
Proof.
  intros Hv Hi Hj. unfold get_element.
  rewrite decide_False by (intros Hn; apply Hn; lia).
  rewrite decide_False by (intros Hn; apply Hn; lia).
  rewrite !Nat2Z.id. by apply item_valid.
Qed.

(** X2. On a valid matrix [get_element] returns the element when
    [0 <= row < rows] and [0 <= col < cols]; otherwise it raises its own
    [IndexError], for the row first and then for the column.  A negative
    index does not count from the end, as it would for a list. *)
Theorem get_element_spec {F : Type} `{Number F} (m : Matrix F) (row col : Z) :
  valid m →
  ((0 ≤ row < Z.of_nat (rows m))%Z → (0 ≤ col < Z.of_nat (cols m))%Z →
     get_element m row col = Ok (elem m (Z.to_nat row) (Z.to_nat col)) ∧
     item (data m) (Z.to_nat row) (Z.to_nat col) = get_element m row col) ∧
  (¬ (0 ≤ row < Z.of_nat (rows m))%Z →
     get_element m row col =
       Err (IndexError
         ("Row index " +:+ pretty row +:+ " out of bounds (0-"
          +:+ pretty (Z.of_nat (rows m) - 1)%Z +:+ ")"))) ∧
  ((0 ≤ row < Z.of_nat (rows m))%Z → ¬ (0 ≤ col < Z.of_nat (cols m))%Z →
     get_element m row col =
       Err (IndexError
         ("Column index " +:+ pretty col +:+ " out of bounds (0-"
          +:+ pretty (Z.of_nat (cols m) - 1)%Z +:+ ")"))).
Proof.
  intros Hv. split; [|split].
  - intros Hr Hc.
    pose proof (get_element_in_range m (Z.to_nat row) (Z.to_nat col) Hv) as Hg.
    rewrite !Z2Nat.id in Hg by lia. rewrite Hg by lia.
    split; [done|]. apply item_valid; [done|lia..].
  - intros Hr. unfold get_element. by rewrite decide_True.
  - intros Hr Hc. unfold get_element.
    rewrite decide_False by (by intros Hn). by rewrite decide_True.
Qed.

Lemma get_element_spec_witness :
  get_element m23 1 2 = Ok 6%Z ∧
  get_element m23 (-1) 0 = Err (IndexError "Row index -1 out of bounds (0-1)") ∧
  get_element m23 0 3 =
    Err (IndexError "Column index 3 out of bounds (0-2)").
Proof.
  destruct (get_element_spec m23 1 2) as (Hin & _); [reflexivity|].
  destruct (get_element_spec m23 (-1) 0) as (_ & Hrow & _); [reflexivity|].
  destruct (get_element_spec m23 0 3) as (_ & _ & Hcol); [reflexivity|].
  split; [|split].
  - apply Hin; vm_compute; (split; [discriminate|reflexivity]).
  - apply Hrow. vm_compute. intros [Hn _]. by apply Hn.
  - apply Hcol; vm_compute.
    + split; [discriminate|reflexivity].
    + intros [_ Hn]. discriminate Hn.
Defined.

(** X3. For a valid matrix with at least one column, reading the transpose
    at [(i, j)] is reading the matrix at [(j, i)]. *)
Theorem get_element_transpose {F : Type} `{Number F} (m : Matrix F) (i j : nat) :
  valid m → i < cols m → j < rows m →
  (t ← transpose m; get_element t (Z.of_nat i) (Z.of_nat j))
    = get_element m (Z.of_nat j) (Z.of_nat i).
Proof.
  intros Hv Hi Hj. rewrite transpose_columns by (done || lia).
  cbn [mbind result_bind].
  rewrite !get_element_in_range; try done.
  - by rewrite elem_tabulate.
  - apply valid_tabulate. lia.
  - by rewrite rows_tabulate.
  - rewrite cols_tabulate by lia. done.
Qed.

Lemma get_element_transpose_witness :
  (t ← transpose m23; get_element t 2 1) = get_element m23 1 2.
Proof.
  apply (get_element_transpose m23 2 1); [reflexivity|vm_compute; lia..].
Defined.

(** ** Further properties: addition, scaling and transposition *)

(** Two tables are compared element by element, once the shapes of the
    tabulated operands are computed. *)
Ltac table_eq :=
  do 2 f_equal;
  rewrite ?rows_tabulate, ?cols_tabulate by lia;
  try (apply tabulate_ext; intros;
       rewrite ?elem_tabulate by lia).

(** X4. [a + b] raises the [ValueError] that names both shapes when the
    shapes differ; on valid matrices of the same shape it returns a matrix
    of that shape whose element at [(i, j)] is [a[i][j] + b[i][j]]. *)
Theorem Matrix_add_spec {F : Type} `{Number F} (a b : Matrix F) :
  (rows a ≠ rows b ∨ cols a ≠ cols b →
     Matrix_add a b =
       Err (ValueError
         ("Cannot add matrices of different sizes: "
          +:+ pretty (rows a) +:+ "x" +:+ pretty (cols a) +:+ " and "
          +:+ pretty (rows b) +:+ "x" +:+ pretty (cols b)))) ∧
  (valid a → valid b → rows a = rows b → cols a = cols b →
     ∃ c, Matrix_add a b = Ok c ∧ rows c = rows a ∧ cols c = cols a ∧
       ∀ i j, i < rows a → j < cols a →
         ∃ x y,
           get_element a (Z.of_nat i) (Z.of_nat j) = Ok x ∧
           get_element b (Z.of_nat i) (Z.of_nat j) = Ok y ∧
           get_element c (Z.of_nat i) (Z.of_nat j) = Ok (add x y)).
Proof.
  split.
  - intros Hne. unfold Matrix_add. by rewrite decide_True.
  - intros Ha Hb Hr Hc. pose proof (valid_rows_pos a Ha) as Hpos.
    eexists. split; [by apply Matrix_add_unfold|].
    split; [apply rows_tabulate|]. split; [by apply cols_tabulate|].
    intros i j Hi Hj. exists (elem a i j), (elem b i j).
    rewrite !get_element_in_range; try (done || lia).
    + by rewrite elem_tabulate.
    + by apply valid_tabulate.
    + by rewrite rows_tabulate.
    + by rewrite cols_tabulate.
Qed.

Lemma Matrix_add_spec_witness :
  Matrix_add m22 m23 =
    Err (ValueError "Cannot add matrices of different sizes: 2x2 and 2x3") ∧
  ∃ c, Matrix_add m22 m22' = Ok c ∧ rows c = 2 ∧ cols c = 2 ∧
    ∀ i j, i < 2 → j < 2 →
      ∃ x y,
        get_element m22 (Z.of_nat i) (Z.of_nat j) = Ok x ∧
        get_element m22' (Z.of_nat i) (Z.of_nat j) = Ok y ∧
        get_element c (Z.of_nat i) (Z.of_nat j) = Ok (x + y)%Z.
Proof.
  split.
  - apply (proj1 (Matrix_add_spec m22 m23)). right. vm_compute. lia.
  - exact (proj2 (Matrix_add_spec m22 m22') eq_refl eq_refl eq_refl eq_refl).
Defined.

(** X5. When [+] on the elements is commutative, so is [+] on valid
    matrices of the same shape. *)
Theorem Matrix_add_comm {F : Type} `{Number F} (a b : Matrix F) :
  (∀ x y : F, add x y = add y x) →
  valid a → valid b → rows a = rows b → cols a = cols b →
  Matrix_add a b = Matrix_add b a.
Proof.
  intros Hcomm Ha Hb Hr Hc.
  rewrite !Matrix_add_unfold by done. rewrite <- Hr, <- Hc.
  do 2 f_equal. apply tabulate_ext. intros i j _ _. apply Hcomm.
Qed.

Lemma Matrix_add_comm_witness : Matrix_add m22 m22' = Matrix_add m22' m22.
Proof.
  apply Matrix_add_comm; [intros x y; simpl; lia|reflexivity..].
Defined.

(** X6. [m * scalar] and [scalar * m] never raise on a valid matrix: both
    return the matrix of the same shape whose element at [(i, j)] is
    [m[i][j] * scalar], the scalar on the right in both cases. *)
Theorem Matrix_mul_spec {F : Type} `{Number F} (m : Matrix F) (scalar : F) :
  valid m →
  ∃ c, Matrix_mul m scalar = Ok c ∧ Matrix_rmul m scalar = Ok c ∧
    rows c = rows m ∧ cols c = cols m ∧
    ∀ i j, i < rows m → j < cols m →
      ∃ x, get_element m (Z.of_nat i) (Z.of_nat j) = Ok x ∧
           get_element c (Z.of_nat i) (Z.of_nat j) = Ok (mul x scalar).
Proof.
  intros Hv. pose proof (valid_rows_pos m Hv) as Hpos.
  eexists. unfold Matrix_rmul.
  split; [by apply Matrix_mul_unfold|]. split; [by apply Matrix_mul_unfold|].
  split; [apply rows_tabulate|]. split; [by apply cols_tabulate|].
  intros i j Hi Hj. exists (elem m i j).
  rewrite !get_element_in_range; try (done || lia).
  - by rewrite elem_tabulate.
  - by apply valid_tabulate.
  - by rewrite rows_tabulate.
  - by rewrite cols_tabulate.
Qed.

Lemma Matrix_mul_spec_witness :
  ∃ c, Matrix_mul m22 3%Z = Ok c ∧ Matrix_rmul m22 3%Z = Ok c ∧
    rows c = 2 ∧ cols c = 2 ∧
    ∀ i j, i < 2 → j < 2 →
      ∃ x, get_element m22 (Z.of_nat i) (Z.of_nat j) = Ok x ∧
           get_element c (Z.of_nat i) (Z.of_nat j) = Ok (x * 3)%Z.
Proof. exact (Matrix_mul_spec m22 3%Z eq_refl). Defined.

(** X7. When [*] distributes over [+] on the elements, scaling a sum of
    valid matrices of the same shape is adding the scaled matrices:
    [(a + b) * k == a * k + b * k]. *)
Theorem Matrix_mul_add_distr {F : Type} `{Number F} (a b : Matrix F) (k : F) :
  (∀ x y : F, mul (add x y) k = add (mul x k) (mul y k)) →
  valid a → valid b → rows a = rows b → cols a = cols b →
  (s ← Matrix_add a b; Matrix_mul s k)
    = (a' ← Matrix_mul a k; b' ← Matrix_mul b k; Matrix_add a' b').
Proof.
  intros Hdistr Ha Hb Hr Hc.
  pose proof (valid_rows_pos a Ha) as Hpa.
  pose proof (valid_rows_pos b Hb) as Hpb.
  rewrite Matrix_add_unfold, !Matrix_mul_unfold by done.
  cbn [mbind result_bind].
  rewrite Matrix_mul_unfold by (by apply valid_tabulate).
  rewrite Matrix_add_unfold;
    rewrite ?rows_tabulate, ?cols_tabulate; try (done || lia);
    try (by apply valid_tabulate).
  table_eq. apply Hdistr.
Qed.

Lemma Matrix_mul_add_distr_witness :
  (s ← Matrix_add m22 m22'; Matrix_mul s 2%Z)
    = (a' ← Matrix_mul m22 2%Z; b' ← Matrix_mul m22' 2%Z; Matrix_add a' b').
Proof.
  apply Matrix_mul_add_distr; [intros x y; simpl; lia|reflexivity..].
Defined.

(** X8. Transposition goes through addition: for valid matrices of the same
    shape with at least one column, the transpose of [a + b] is the sum of
    the transposes. *)
Theorem transpose_add {F : Type} `{Number F} (a b : Matrix F) :
  valid a → valid b → rows a = rows b → cols a = cols b → 0 < cols a →
  (s ← Matrix_add a b; transpose s)
    = (ta ← transpose a; tb ← transpose b; Matrix_add ta tb).
Proof.
  intros Ha Hb Hr Hc Hpos.
  pose proof (valid_rows_pos a Ha) as Hpa.
  rewrite Matrix_add_unfold, !transpose_columns by (done || lia).
  cbn [mbind result_bind].
  rewrite transpose_columns;
    rewrite ?cols_tabulate by lia; try (done || by apply valid_tabulate).
  rewrite Matrix_add_unfold;
    rewrite ?rows_tabulate, ?cols_tabulate by lia;
    try (done || lia || (apply valid_tabulate; lia)).
  by table_eq.
Qed.

Lemma transpose_add_witness :
  (s ← Matrix_add m22 m22'; transpose s)
    = (ta ← transpose m22; tb ← transpose m22'; Matrix_add ta tb).
Proof. apply transpose_add; [reflexivity..|vm_compute; lia]. Defined.

(** X9. Transposition goes through scaling: for a valid matrix with at
    least one column, the transpose of [m * k] is the transpose of [m]
    times [k]. *)
Theorem transpose_mul {F : Type} `{Number F} (m : Matrix F) (k : F) :
  valid m → 0 < cols m →
  (s ← Matrix_mul m k; transpose s) = (t ← transpose m; Matrix_mul t k).
Proof.
  intros Hv Hpos. pose proof (valid_rows_pos m Hv) as Hpm.
  rewrite Matrix_mul_unfold, transpose_columns by done.
  cbn [mbind result_bind].
  rewrite transpose_columns;
    rewrite ?cols_tabulate by lia; try (done || by apply valid_tabulate).
  rewrite Matrix_mul_unfold by (by apply valid_tabulate).
  by table_eq.
Qed.

Lemma transpose_mul_witness :
  (s ← Matrix_mul m23 5%Z; transpose s) = (t ← transpose m23; Matrix_mul t 5%Z).
Proof. apply transpose_mul; [reflexivity|vm_compute; lia]. Defined.

(** X10. Over exact arithmetic, scaling a valid matrix by [1.0] gives the
    matrix back. *)
Theorem Matrix_mul_one {F : Type} `{ExactArith F} (m : Matrix F) :
  valid m → Matrix_mul m one_f = Ok m ∧ Matrix_rmul m one_f = Ok m.
Proof.
  intros Hv. unfold Matrix_rmul.
  assert (Matrix_mul m one_f = Ok m) as Hm; [|done].
  rewrite Matrix_mul_unfold by done.
  transitivity (Ok {| data := data m |}); [|by destruct m].
  do 2 f_equal. etrans; [|symmetry; by apply valid_data_tabulate].
  apply tabulate_ext. intros i j _ _. apply mul_one_r.
Qed.

Lemma Matrix_mul_one_witness :
  Matrix_mul m23 1%Z = Ok m23 ∧ Matrix_rmul m23 1%Z = Ok m23.
Proof. exact (Matrix_mul_one (F := Z) m23 eq_refl). Defined.

(** X11. The identity matrix is its own transpose. *)
Theorem transpose_identity {F : Type} `{Number F} (size : Z) :
  (1 ≤ size)%Z →
  (I ← create_identity_matrix size; transpose I)
    = create_identity_matrix (F := F) size.
Proof.
  intros Hs. rewrite create_identity_matrix_unfold by done.
  cbn [mbind result_bind].
  rewrite transpose_columns;
    rewrite ?rows_tabulate, ?cols_tabulate by lia;
    try (lia || (apply valid_tabulate; lia)).
  table_eq. unfold kronecker.
  destruct (decide (j = i)), (decide (i = j)); done || lia.
Qed.

Lemma transpose_identity_witness :
  (I ← create_identity_matrix 3; transpose I)
    = create_identity_matrix (F := Z) 3.
Proof. apply transpose_identity. lia. Defined.

(** ** Further properties: trace, products and the identity matrix *)

Lemma matrix_trace_unfold {F : Type} `{Number F} (m : Matrix F) :
  valid m → rows m = cols m →
  matrix_trace m = Ok (py_sum ((λ i, elem m i i) <$> range (rows m))).
Proof.
  intros Hv Hsq. unfold matrix_trace. rewrite decide_False by (by intros ?).
  rewrite (comprehension_Ok _ (λ i, elem m i i)); [done|].
  intros i Hi. apply elem_of_seq in Hi. apply item_valid; [done|lia..].
Qed.

(** X12. [matrix_trace] raises its [ValueError] when [rows != cols]; on a
    valid square matrix it returns the sum, from [0] and from the top left,
    of the diagonal elements, each of which [get_element] reads. *)
Theorem matrix_trace_spec {F : Type} `{Number F} (m : Matrix F) :
  (rows m ≠ cols m →
     matrix_trace m =
       Err (ValueError "Trace can only be calculated for square matrices")) ∧
  (valid m → rows m = cols m →
     matrix_trace m = Ok (py_sum ((λ i, elem m i i) <$> range (rows m))) ∧
     ∀ i, i < rows m →
       get_element m (Z.of_nat i) (Z.of_nat i) = Ok (elem m i i)).
Proof.
  split.
  - intros Hne. unfold matrix_trace. by rewrite decide_True.
  - intros Hv Hsq. split; [by apply matrix_trace_unfold|].
    intros i Hi. apply get_element_in_range; [done|lia..].
Qed.

Lemma matrix_trace_spec_witness :
  matrix_trace m23 =
    Err (ValueError "Trace can only be calculated for square matrices") ∧
  matrix_trace m33 = Ok (0 + 1 + 5 + 9)%Z.
Proof.
  split.
  - apply (proj1 (matrix_trace_spec m23)). vm_compute. lia.
  - exact (proj1 (proj2 (matrix_trace_spec m33) eq_refl eq_refl)).
Defined.

(** X13. A valid square matrix and its transpose have the same trace. *)
Theorem matrix_trace_transpose {F : Type} `{Number F} (m : Matrix F) :
  valid m → rows m = cols m →
  (t ← transpose m; matrix_trace t) = matrix_trace m.
Proof.
  intros Hv Hsq. pose proof (valid_rows_pos m Hv) as Hpos.
  rewrite transpose_columns by (done || lia). cbn [mbind result_bind].
  rewrite !matrix_trace_unfold;
    rewrite ?rows_tabulate, ?cols_tabulate by lia;
    try (done || lia || (apply valid_tabulate; lia)).
  do 2 f_equal. rewrite <- Hsq. apply list_fmap_ext. intros ? i Hi.
  apply lookup_seq in Hi as [-> Hi]. rewrite elem_tabulate by lia. done.
Qed.

Lemma matrix_trace_transpose_witness :
  (t ← transpose m33; matrix_trace t) = matrix_trace m33.
Proof. apply matrix_trace_transpose; reflexivity. Defined.

(** X14. When [*] on the elements is commutative, the transpose of a
    product is the product of the transposes in the other order, for valid
    [a] and [b] with [a.cols == b.rows] and at least one column in [b]. *)
Theorem transpose_multiply {F : Type} `{Number F} (a b : Matrix F) :
  (∀ x y : F, mul x y = mul y x) →
  valid a → valid b → cols a = rows b → 0 < cols b →
  (p ← multiply_matrices a b; transpose p)
    = (tb ← transpose b; ta ← transpose a; multiply_matrices tb ta).
Proof.
  intros Hcomm Ha Hb Hc Hpos.
  pose proof (valid_rows_pos a Ha) as Hpa.
  pose proof (valid_rows_pos b Hb) as Hpb.
  rewrite multiply_matrices_unfold, !transpose_columns by (done || lia).
  cbn [mbind result_bind].
  rewrite transpose_columns;
    rewrite ?rows_tabulate, ?cols_tabulate by lia;
    try (done || lia || (apply valid_tabulate; lia)).
  rewrite multiply_matrices_unfold;
    rewrite ?rows_tabulate, ?cols_tabulate by lia;
    try (done || lia || (apply valid_tabulate; lia)).
  table_eq. unfold dot, range. rewrite cols_tabulate by lia.
  rewrite <- Hc. f_equal.
  apply list_fmap_ext. intros ? k Hk. apply lookup_seq in Hk as [-> Hk].
  rewrite !elem_tabulate by lia. apply Hcomm.
Qed.

Lemma transpose_multiply_witness :
  (p ← multiply_matrices m23 m33; transpose p)
    = (tb ← transpose m33; ta ← transpose m23; multiply_matrices tb ta).
Proof.
  apply transpose_multiply;
    [intros x y; simpl; lia|reflexivity..|vm_compute; lia].
Defined.

Section IdentityDeterminant.
Context {F : Type} `{ExactArith F}.
Hypothesis sub_zero_r : ∀ x : F, sub x zero_f = x.

Lemma minor_identity (n : nat) :
  minor {| data := tabulate (S n) (S n) kronecker |} 0
    = {| data := tabulate n n kronecker |}.
Proof.
  unfold minor, tabulate. simpl. f_equal.
  rewrite drop_0, <- !fmap_S_seq, <- !list_fmap_compose.
  apply list_fmap_ext. intros ? i _. simpl.
  etrans; [symmetry; apply (list_fmap_compose S (kronecker (S i)))|].
  apply list_fmap_ext. intros ? j _. simpl.
  unfold kronecker. destruct (decide (S i = S j)), (decide (i = j)); done || lia.
Qed.

Lemma alternating_sum_zeros {A : Type} (l : list A) (col : nat) (acc : F) :
  alternating_sum_from col acc ((λ _, zero_f) <$> l) = acc.
Proof.
  revert col acc. induction l as [|x l IH]; intros col acc; simpl; [done|].
  rewrite IH. destruct (Nat.even col); [apply add_zero_r|apply sub_zero_r].
Qed.

Lemma laplace_identity (n : nat) :
  laplace (S n) {| data := tabulate (S n) (S n) kronecker |} = one_f.
Proof.
  induction n as [|n IH]; [done|].
  destruct n as [|k].
  { cbn. unfold kronecker. simpl.
    by rewrite mul_one_l, mul_zero_l, sub_zero_r. }
  rewrite laplace_step. unfold alternating_sum, cofactors, range.
  rewrite cols_tabulate by lia.
  change (seq 0 (S (S (S k)))) with (0 :: seq 1 (S (S k))).
  rewrite fmap_cons. cbn [alternating_sum_from Nat.even].
  rewrite minor_identity, IH.
  rewrite elem_tabulate by lia. unfold kronecker at 1.
  rewrite decide_True by done. rewrite mul_one_l, add_zero_l.
  rewrite (list_fmap_ext _ (λ _, zero_f)).
  - apply alternating_sum_zeros.
  - intros ? col Hcol. apply lookup_seq in Hcol as [-> Hcol].
    rewrite elem_tabulate by lia. unfold kronecker.
    rewrite decide_False by lia. apply mul_zero_l.
Qed.

End IdentityDeterminant.

(** X15. Over exact arithmetic (with [x - 0.0 = x] besides), the
    determinant of the identity matrix of any size [>= 1] is [1.0]. *)
Theorem matrix_determinant_identity {F : Type} `{ExactArith F} (size : Z) :
  (∀ x : F, sub x zero_f = x) →
  (1 ≤ size)%Z →
  ∃ I, create_identity_matrix size = Ok I ∧
       matrix_determinant I = Done (Ok one_f).
Proof.
  intros Hsub Hs. eexists. split; [by apply create_identity_matrix_unfold|].
  unfold matrix_determinant.
  rewrite matrix_determinant_fuel_laplace;
    rewrite ?rows_tabulate, ?cols_tabulate by lia;
    try (lia || (apply valid_tabulate; lia)).
  destruct (Z.to_nat size) as [|n] eqn:Hn; [lia|].
  by rewrite laplace_identity.
Qed.

Lemma matrix_determinant_identity_witness :
  ∃ I : Matrix Z, create_identity_matrix 4 = Ok I ∧
                  matrix_determinant I = Done (Ok 1%Z).
Proof.
  exact (matrix_determinant_identity (F := Z) 4 Z.sub_0_r ltac:(lia)).
Defined.

(** ** Further properties: totals and user names *)



Section Names.
Context {char : Type} (isspace : char → bool) (space : char).
Implicit Types (s : list char) (u : User char).

Lemma lstrip_split s :
  ∃ p, s = p ++ lstrip isspace s ∧ Forall (λ c, isspace c = true) p.
Proof.
  induction s as [|c s (p & Hs & Hp)]; simpl.
  - by exists [].
  - destruct (isspace c) eqn:Hc.
    + exists (c :: p). split; [by rewrite <- app_comm_cons, <- Hs|].
      by constructor.
    + by exists [].
Qed.

Lemma lstrip_head s c :
  head (lstrip isspace s) = Some c → isspace c = false.
Proof.
  induction s as [|c' s IH]; simpl; [done|].
  destruct (isspace c') eqn:Hc; [done|]. simpl. by intros [= <-].
Qed.

Lemma lstrip_id s c : head s = Some c → isspace c = false → lstrip isspace s = s.
Proof. destruct s as [|c' s]; simpl; [done|]. by intros [= ->] ->. Qed.

Lemma lstrip_spaces s t :
  Forall (λ c, isspace c = true) s →
  lstrip isspace (s ++ t) = lstrip isspace t.
Proof. induction 1 as [|c s Hc _ IH]; simpl; [done|]. by rewrite Hc. Qed.

Lemma rstrip_split s :
  ∃ q, s = rstrip isspace s ++ q ∧ Forall (λ c, isspace c = true) q.
Proof.
  destruct (lstrip_split (reverse s)) as (p & Hs & Hp).
  exists (reverse p). split.
  - unfold rstrip. rewrite <- reverse_app, <- Hs. by rewrite reverse_involutive.
  - by apply Forall_reverse.
Qed.

Lemma rstrip_id s c : last s = Some c → isspace c = false → rstrip isspace s = s.
Proof.
  intros Hl Hc. unfold rstrip. rewrite (lstrip_id _ c).
  - apply reverse_involutive.
  - by rewrite head_reverse.
  - done.
Qed.

End Names.

(** X17. [full_name] is [first_name + " " + last_name] without a prefix
    and a suffix made of whitespace only, and what is left neither starts
    nor ends with a whitespace character. *)
Theorem full_name_stripped {char : Type} (isspace : char → bool)
    (space : char) (u : User char) :
  (∃ p q,
     first_name u ++ [space] ++ last_name u
       = p ++ get_user_full_name isspace space u ++ q ∧
     Forall (λ c, isspace c = true) p ∧ Forall (λ c, isspace c = true) q) ∧
  (∀ c, head (get_user_full_name isspace space u) = Some c →
     isspace c = false) ∧
  (∀ c, last (get_user_full_name isspace space u) = Some c →
     isspace c = false).
Proof.
  unfold get_user_full_name, full_name, strip.
  set (s := first_name u ++ [space] ++ last_name u).
  destruct (lstrip_split isspace s) as (p & Hs & Hp).
  destruct (rstrip_split isspace (lstrip isspace s)) as (q & Ht & Hq).
  split; [|split].
  - exists p, q. split; [|done]. by rewrite <- Ht.
  - intros c Hc. apply (lstrip_head isspace s). rewrite Ht.
    apply head_Some in Hc as [l' ->]. done.
  - intros c. unfold rstrip. rewrite last_reverse. apply lstrip_head.
Qed.

(** X18. When the first name starts with a character that is not
    whitespace and the last name ends with one, [full_name] is
    [first_name + " " + last_name] unchanged. *)
Theorem full_name_clean {char : Type} (isspace : char → bool)
    (space : char) (u : User char) (c c' : char) :
  head (first_name u) = Some c → isspace c = false →
  last (last_name u) = Some c' → isspace c' = false →
  get_user_full_name isspace space u
    = first_name u ++ [space] ++ last_name u.
Proof.
  intros Hh Hc Hl Hc'. unfold get_user_full_name, full_name, strip.
  rewrite (lstrip_id isspace _ c); [|by rewrite head_app, Hh|done].
  apply (rstrip_id isspace _ c'); [|done].
  rewrite app_assoc. by rewrite last_app, Hl.
Qed.

Lemma full_name_clean_witness :
  get_user_full_name ascii_isspace ascii_space ada
    = String.list_ascii_of_string "Ada Lovelace".
Proof.
  exact (full_name_clean ascii_isspace ascii_space ada
           (Ascii.ascii_of_nat 65) (Ascii.ascii_of_nat 101)
           eq_refl eq_refl eq_refl eq_refl).
Defined.

(** X19. When [" "] is whitespace, the last name is empty or whitespace
    only, and the first name neither starts nor ends with whitespace,
    [full_name] is the first name alone. *)
Theorem full_name_first_only {char : Type} (isspace : char → bool)
    (space : char) (u : User char) (c c' : char) :
  isspace space = true →
  Forall (λ x, isspace x = true) (last_name u) →
  head (first_name u) = Some c → isspace c = false →
  last (first_name u) = Some c' → isspace c' = false →
  get_user_full_name isspace space u = first_name u.
Proof.
  intros Hsp Hlast Hh Hc Hl Hc'. unfold get_user_full_name, full_name, strip.
  rewrite (lstrip_id isspace _ c); [|by rewrite head_app, Hh|done].
  unfold rstrip. rewrite reverse_app, lstrip_spaces.
  - rewrite (lstrip_id isspace _ c'); [apply reverse_involutive| |done].
    by rewrite head_reverse.
  - apply Forall_reverse. by constructor.
Qed.

Lemma full_name_first_only_witness :
  get_user_full_name ascii_isspace ascii_space ada_only
    = String.list_ascii_of_string "Ada".
Proof.
  exact (full_name_first_only ascii_isspace ascii_space ada_only
           (Ascii.ascii_of_nat 65) (Ascii.ascii_of_nat 97)
           eq_refl (List.Forall_nil _) eq_refl eq_refl eq_refl eq_refl).
Defined.
